(** * typed-adventureland: the type generator (src/generator/Generator.ts)

    A shallow embedding of the [Generator] class: the descriptor store
    ([loadConfig]), the scaffolding of default descriptors
    ([generateDefaultConfigs]) and the assembly of the per-category and
    global index modules ([generate]).

    JavaScript values are embedded as a tagged union, the file system as a
    finite map from paths to file contents together with a chronological
    log of the writes, and every method as a computation in a small
    state-and-exception monad over that world.  The modules the class
    imports but which are not part of the embedded file (the JSON reader,
    [groupBy], [analyseAll], [generateTypes], the formatter) are the fields
    of the class [Collaborators]; every theorem holds for all of them. *)

From Stdlib Require Import ZArith Ascii String List.
From stdpp Require Import base option list strings pretty gmap.

Local Open Scope string_scope.
Local Open Scope list_scope.
Set Warnings "-register-all".

(** ** Strings *)

(** The line feed of the template literals. *)
Definition nl : string := String "010" EmptyString.

Definition chars (s : string) : list ascii := list_ascii_of_string s.
Definition str (l : list ascii) : string := string_of_list_ascii l.

Fixpoint strip_prefix (p s : string) : option string :=
  match p with
  | EmptyString => Some s
  | String a p' =>
      match s with
      | EmptyString => None
      | String b s' => if decide (a = b) then strip_prefix p' s' else None
      end
  end.

Fixpoint has_char (c : ascii) (s : string) : bool :=
  match s with
  | EmptyString => false
  | String a r => if decide (a = c) then true else has_char c r
  end.

(** [s.includes(t)]. *)
Fixpoint includes (s t : string) : bool :=
  match strip_prefix t s with
  | Some _ => true
  | None => match s with EmptyString => false | String _ r => includes r t end
  end.

(** ** JavaScript values and exceptions *)

Inductive exn : Type :=
| SyntaxError (msg : string)
| TypeError (msg : string)
| ENOENT (syscall path : string)
| Thrown (origin msg : string).


(** Numbers are restricted to the integers: no number takes part in any
    decision of the generator. *)
Inductive value : Type :=
| VUndef
| VNull
| VBool (b : bool)
| VNum (n : Z)
| VStr (s : string)
| VArr (xs : list value)
| VObj (props : list (string * value)).

(** ToBoolean. *)
Definition truthy (v : value) : bool :=
  match v with
  | VUndef | VNull => false
  | VBool b => b
  | VNum n => negb (n =? 0)%Z
  | VStr s => negb (bool_decide (s = ""))
  | VArr _ | VObj _ => true
  end.

Fixpoint assoc {A} (k : string) (l : list (string * A)) : option A :=
  match l with
  | [] => None
  | (k', x) :: r => if decide (k' = k) then Some x else assoc k r
  end.

(** [v.k]: reading a property of [null] or [undefined] throws; a missing
    property, or a property of a primitive, reads as [undefined] (inherited
    properties are not modelled). *)
Definition get_prop (v : value) (k : string) : exn + value :=
  match v with
  | VUndef =>
      inl (TypeError ("Cannot read properties of undefined (reading '" +:+ k +:+ "')"))
  | VNull =>
      inl (TypeError ("Cannot read properties of null (reading '" +:+ k +:+ "')"))
  | VObj ps => inr (default VUndef (assoc k ps))
  | _ => inr VUndef
  end.

(** [v === s] for a string [s]. *)
Definition strict_eq_str (v : value) (s : string) : bool :=
  match v with
  | VStr t => bool_decide (t = s)
  | _ => false
  end.

(** ** JSON.stringify(v, null, 2) *)

Definition hex_digit (n : N) : ascii :=
  if (n <? 10)%N then ascii_of_N (48 + n) else ascii_of_N (87 + n).

(** The double quote. *)
Definition dquote : ascii := "034"%char.

Definition escape_char (c : ascii) : string :=
  let n := N_of_ascii c in
  if decide (c = dquote) then String "\" (String dquote "")
  else if decide (c = "\"%char) then "\\"
  else if (n =? 8)%N then "\b"
  else if (n =? 9)%N then "\t"
  else if (n =? 10)%N then "\n"
  else if (n =? 12)%N then "\f"
  else if (n =? 13)%N then "\r"
  else if (n <? 32)%N then
    "\u00" +:+ String (hex_digit (n / 16)) (String (hex_digit (n mod 16)) "")
  else String c "".

Fixpoint escape (s : string) : string :=
  match s with
  | EmptyString => ""
  | String c r => escape_char c +:+ escape r
  end.

Definition quote (s : string) : string :=
  String dquote (escape s +:+ String dquote "").

Definition gap : string := "  ".

Fixpoint serialize (indent : string) (v : value) : string :=
  let inner := indent +:+ gap in
  match v with
  | VUndef | VNull => "null"
  | VBool b => if b then "true" else "false"
  | VNum n => pretty n
  | VStr s => quote s
  | VArr xs =>
      let items :=
        (fix items (xs : list value) : list string :=
           match xs with
           | [] => []
           | x :: r => (inner +:+ serialize inner x) :: items r
           end) xs in
      match items with
      | [] => "[]"
      | _ => "[" +:+ nl +:+ String.concat ("," +:+ nl) items +:+ nl +:+ indent +:+ "]"
      end
  | VObj ps =>
      let members :=
        (fix members (ps : list (string * value)) : list string :=
           match ps with
           | [] => []
           | (_, VUndef) :: r => members r
           | (k, x) :: r =>
               (inner +:+ quote k +:+ ": " +:+ serialize inner x) :: members r
           end) ps in
      match members with
      | [] => "{}"
      | _ => "{" +:+ nl +:+ String.concat ("," +:+ nl) members +:+ nl +:+ indent +:+ "}"
      end
  end.

(** [JSON.stringify(undefined)] is [undefined], not a string. *)
Definition JSON_stringify (v : value) : option string :=
  match v with
  | VUndef => None
  | _ => Some (serialize "" v)
  end.

(** ** path *)

(** [path.join] without the normalisation of [.], [..] and repeated
    separators. *)
Definition path_join (a b : string) : string := a +:+ "/" +:+ b.

Definition is_slash (c : ascii) : bool := bool_decide (c = "/"%char).

Fixpoint drop_while {A} (p : A → bool) (l : list A) : list A :=
  match l with
  | [] => []
  | x :: r => if p x then drop_while p r else l
  end.

Fixpoint take_while {A} (p : A → bool) (l : list A) : list A :=
  match l with
  | [] => []
  | x :: r => if p x then x :: take_while p r else []
  end.

(** The last portion of a path, trailing separators ignored. *)
Definition last_portion (p : string) : string :=
  str (rev (take_while (λ c, negb (is_slash c)) (drop_while is_slash (rev (chars p))))).

(** The suffix of [s] that starts at its last dot. *)
Fixpoint from_last_dot (s : string) : option string :=
  match s with
  | EmptyString => None
  | String c r =>
      match from_last_dot r with
      | Some e => Some e
      | None => if decide (c = "."%char) then Some s else None
      end
  end.

(** [path.extname]: from the last dot of the last portion; empty when
    there is no dot other than a leading one, and for [..]. *)
Definition extname (p : string) : string :=
  match last_portion p with
  | EmptyString => ""
  | String c r =>
      if decide (String c r = "..") then ""
      else default "" (from_last_dot r)
  end.

(** [s] without the suffix [suffix], when it ends with it. *)
Fixpoint strip_suffix (suffix s : string) : option string :=
  if decide (s = suffix) then Some ""
  else
    match s with
    | EmptyString => None
    | String c r => String c <$> strip_suffix suffix r
    end.

(** [path.basename(p, suffix)]. *)
Definition basename (p suffix : string) : string :=
  let c := last_portion p in
  if decide (suffix = "") then c
  else if decide (p = suffix) then ""
  else if decide (c = suffix) then c
  else default c (strip_suffix suffix c).


(** ** The world: file system, write log, console *)

Record World : Type := mkWorld {
  dirs : gset string;
  files : gmap string string;
  (** every [writeFileSync], oldest first *)
  log : list (string * string);
  console : list string
}.

Inductive result (A : Type) : Type :=
| Ok (a : A) (w : World)
| Throw (e : exn) (w : World).
Arguments Ok {A} a w.
Arguments Throw {A} e w.

(** Computations that read and change the world and may throw; the world
    reached when the exception is thrown is kept (writes are not rolled
    back). *)
Definition M (A : Type) : Type := World → result A.

Definition ret {A} (a : A) : M A := λ w, Ok a w.

Definition bind {A B} (m : M A) (k : A → M B) : M B :=
  λ w, match m w with
       | Ok a w' => k a w'
       | Throw e w' => Throw e w'
       end.

Definition throw {A} (e : exn) : M A := λ w, Throw e w.

Definition lift {A} (r : exn + A) : M A :=
  match r with
  | inl e => throw e
  | inr a => ret a
  end.

Notation "'let!' x ':=' m 'in' k" := (bind m (λ x, k))
  (at level 10, x pattern, m at level 100, k at level 200).
Notation "m '>>' k" := (bind m (λ _, k))
  (at level 100, k at level 200, right associativity).

(** [for (const x of xs) body]. *)
Fixpoint for_each {A} (xs : list A) (body : A → M unit) : M unit :=
  match xs with
  | [] => ret tt
  | x :: r => body x >> for_each r body
  end.

(** A loop that carries the arrays it pushes to. *)
Fixpoint fold_each {A S} (xs : list A) (body : S → A → M S) (s : S) : M S :=
  match xs with
  | [] => ret s
  | x :: r => let! s' := body s x in fold_each r body s'
  end.

(** The entry of directory [d] that path [p] denotes, if it is one. *)
Definition child_of (d p : string) : option string :=
  match strip_prefix (d +:+ "/") p with
  | Some n => if has_char "/" n then None else Some n
  | None => None
  end.

(** The files of directory [d], in the order of the finite map (the order
    in which the system lists a directory is not specified). *)
Definition listing (d : string) (fs : gmap string string) : list string :=
  omap (child_of d) (map fst (map_to_list fs)).

(** [readdirSync(d)]: a missing directory, or the empty path, is [ENOENT]. *)
Definition readdirSync (d : string) : M (list string) :=
  λ w, if decide (d ≠ "" ∧ d ∈ dirs w)
       then Ok (listing d (files w)) w
       else Throw (ENOENT "scandir" d) w.

Definition readFileSync (p : string) : M string :=
  λ w, match files w !! p with
       | Some c => Ok c w
       | None => Throw (ENOENT "open" p) w
       end.

(** [writeFileSync(p, content)]: creates or replaces the file; failures of
    the underlying system are not modelled. *)
Definition writeFileSync (p content : string) : M unit :=
  λ w, Ok tt {| dirs := dirs w;
                files := <[p := content]> (files w);
                log := log w ++ [(p, content)];
                console := console w |}.

(** [writeFileSync(p, JSON.stringify(v, null, 2))]: the data argument must
    be a string. *)
Definition write_json (p : string) (v : value) : M unit :=
  match JSON_stringify v with
  | Some text => writeFileSync p text
  | None =>
      throw (TypeError "The data argument must be of type string. Received undefined")
  end.

Definition console_log (line : string) : M unit :=
  λ w, Ok tt {| dirs := dirs w; files := files w; log := log w;
                console := console w ++ [line] |}.

(** Modelled from the spec: [ensureDirectory] of ./helpers/ensureDirectory,
    which is not part of the embedded file; a file-system scaffolding helper
    that makes sure the directory exists. *)
Definition ensureDirectory (d : string) : M unit :=
  λ w, Ok tt {| dirs := {[d]} ∪ dirs w; files := files w; log := log w;
                console := console w |}.

Definition is_lower (c : ascii) : bool :=
  let n := N_of_ascii c in (97 <=? n)%N && (n <=? 122)%N.


Definition to_upper (c : ascii) : ascii :=
  if is_lower c then ascii_of_N (N_of_ascii c - 32) else c.

(** Modelled from the spec: [capitalize] of ./helpers/capitalize, which is
    not part of the embedded file; names are capitalized into identifiers,
    that is, the first character is put in upper case. *)
Definition capitalize (s : string) : string :=
  match s with
  | EmptyString => ""
  | String c r => String (to_upper c) r
  end.



(** ** The generator *)

(** [GeneratorConfig] is a compile-time type only: [loadConfig] casts
    whatever the JSON reader returns, so a config is a [value]. *)
Definition GeneratorConfig : Type := value.

(** [RawData]: the properties of the dataset in enumeration order. *)
Definition RawData : Type := list (string * value).

Definition object_keys (data : RawData) : list string := map fst data.

(** [data[k]]. *)
Definition data_get (data : RawData) (k : string) : value :=
  default VUndef (assoc k data).

(** Modelled from the spec: the result type of ./analysis, which is not
    part of the embedded file; [category] is the (possibly renamed) group
    name, [keys] its observed member keys, [detail] the inferred schema. *)
Record AnalysisResult : Type := mkAnalysis {
  category : string;
  keys : list string;
  detail : list (string * value)
}.

Definition analysis_value (val : AnalysisResult) : value :=
  VObj (("category", VStr (category val))
        :: ("keys", VArr (map VStr (keys val)))
        :: detail val).

(** What the class imports from outside the embedded file. *)
Class Collaborators : Type := {
  (** [JSON.parse] *)
  JSON_parse : string → exn + value;
  (** [await getGData()] *)
  getGData : exn + RawData;
  (** [groupBy(records, groupKey)] of ./helpers/groupBy *)
  groupBy : value → value → exn + value;
  (** [analyseAll(grouped, config)] of ./analysis *)
  analyseAll : value → GeneratorConfig → exn + list AnalysisResult;
  (** [generateTypes(val, groupKey, config)] of ./generateTs *)
  generateTypes : AnalysisResult → value → GeneratorConfig → exn + string;
  (** [prettier.format(text, prettierOptions)] *)
  prettier_format : string → exn + string;
  (** [path.resolve(__dirname, "..", "tmp")] *)
  tmpDir : string
}.

(** The fields of the class.  [configMap] is a [Map], iterated in insertion
    order by [generate]: an association list with one entry per key. *)
Record Generator : Type := mkGenerator {
  configMap : list (string * GeneratorConfig);
  targetDir : string;
  configDir : option string
}.

(** [Map.prototype.set]: an existing key keeps its position. *)
Fixpoint map_set {A} (k : string) (x : A) (m : list (string * A)) : list (string * A) :=
  match m with
  | [] => [(k, x)]
  | (k', y) :: r => if decide (k' = k) then (k, x) :: r else (k', y) :: map_set k x r
  end.

Definition map_values {A} (m : list (string * A)) : list A := map snd m.


Record Indexes : Type := mkIndexes {
  gTypesIndex : list string;
  gDataType : list string
}.

Section Generator.
Context {collab : Collaborators}.

(** One turn of the loop of [loadConfig]. *)
Definition load_descriptor (dir : string) (this : Generator) (configFile : string)
    : M Generator :=
  let! text := readFileSync (path_join dir configFile) in
  let! config := lift (JSON_parse text) in
  ret {| configMap := map_set (basename configFile ".json") config (configMap this);
         targetDir := targetDir this;
         configDir := configDir this |}.

(** [loadConfig(configDir)]; the generator is returned as the method leaves
    it.  When the method throws the run is over, and the partly updated
    object is not observed again. *)
Definition loadConfig (this : Generator) (dir : string) : M Generator :=
  let this :=
    {| configMap := configMap this; targetDir := targetDir this;
       configDir := Some dir |} in
  let! entries := readdirSync dir in
  let configFiles := filter (λ file, extname file = ".json") entries in
  fold_each configFiles (load_descriptor dir) this.

(** The inner loop of [generateDefaultConfigs]: whether one of the configs
    declares [GKey]; the labelled [continue] is the [true] result. *)
Fixpoint declared (configs : list GeneratorConfig) (GKey : string) : M bool :=
  match configs with
  | [] => ret false
  | config :: rest =>
      let! k := lift (get_prop config "GKey") in
      if strict_eq_str k GKey then console_log "" >> ret true
      else declared rest GKey
  end.

Definition defaultConfig (GKey : string) : GeneratorConfig :=
  VObj [("disabled", VBool true);
        ("GKey", VStr GKey);
        ("groupKey", VNull);
        ("nameOverride", VObj []);
        ("overrides", VObj []);
        ("extractedTypes", VObj []);
        ("description", VObj [])].

(** [if (this.configDir)]: set, and not the empty string. *)
Definition configDir_set (this : Generator) : option string :=
  match configDir this with
  | Some dir => if decide (dir = "") then None else Some dir
  | None => None
  end.

(** One turn of the outer loop of [generateDefaultConfigs]. *)
Definition scaffold_category (this : Generator) (GKey : string) : M unit :=
  if decide (GKey = "version") then ret tt
  else
    let! found := declared (map_values (configMap this)) GKey in
    if found then ret tt
    else
      match configDir_set this with
      | Some dir =>
          write_json (path_join dir (GKey +:+ ".json")) (defaultConfig GKey)
      | None => ret tt
      end.

Definition generateDefaultConfigs (this : Generator) (data : RawData) : M unit :=
  for_each (object_keys data) (scaffold_category this).

(** The pieces of text [generate] builds from one category's analysis. *)
Definition index_exports (analysis : list AnalysisResult) : list string :=
  map (λ val, "export * from './" +:+ category val +:+ "';") analysis.

Definition index_imports (analysis : list AnalysisResult) : list string :=
  map (λ val, "import type { " +:+ category val +:+ "Key, G" +:+ category val
              +:+ " } from './" +:+ category val +:+ "';") analysis.

Definition index_union (GKey : string) (analysis : list AnalysisResult) : list string :=
  [nl +:+ "export type " +:+ capitalize GKey +:+ "Key ="]
  ++ map (λ val, "| " +:+ category val +:+ "Key") analysis
  ++ [";"].

Definition gTypes_imported (analysis : list AnalysisResult) : list string :=
  map (λ val, "G" +:+ category val) analysis.

Definition gTypes_import (GKey : string) (analysis : list AnalysisResult) : list string :=
  ["import type { ";
   capitalize GKey +:+ "Key,";
   String.concat "," (gTypes_imported analysis);
   "} from './" +:+ GKey +:+ "';"].

Definition gData_entry (GKey : string) (analysis : list AnalysisResult) : list string :=
  [GKey +:+ ": {[T in " +:+ capitalize GKey +:+ "Key]: "]
  ++ map (λ val, "| G" +:+ capitalize (category val)) analysis
  ++ ["};"].

(** The per-category [index] array, once complete. *)
Definition category_index (groupKey : value) (GKey : string)
    (analysis : list AnalysisResult) : list string :=
  if truthy groupKey then
    index_exports analysis ++ [""] ++ index_imports analysis
    ++ index_union GKey analysis
  else index_exports analysis.

(** [gTypesIndex] and [gDataType] after the pushes for one category. *)
Definition push_category (acc : Indexes) (groupKey : value) (GKey : string)
    (analysis : list AnalysisResult) : Indexes :=
  if truthy groupKey then
    {| gTypesIndex := gTypesIndex acc ++ gTypes_import GKey analysis;
       gDataType := gDataType acc ++ gData_entry GKey analysis |}
  else
    let gKeyType := "G" +:+ capitalize GKey in
    {| gTypesIndex :=
         gTypesIndex acc
         ++ ["import type { " +:+ capitalize GKey +:+ "Key, " +:+ gKeyType
             +:+ " } from './" +:+ GKey +:+ "';"];
       gDataType :=
         gDataType acc
         ++ [GKey +:+ ": {[T in " +:+ capitalize GKey +:+ "Key]: " +:+ gKeyType
             +:+ "};"] |}.

(** [groupKey ? groupBy(data[GKey], groupKey) : { [GKey]: data[GKey] }]. *)
Definition group_records (data : RawData) (groupKey : value) (GKey : string)
    : exn + value :=
  if truthy groupKey then groupBy (data_get data GKey) groupKey
  else inr (VObj [(GKey, data_get data GKey)]).

(** The writes for one analysis result. *)
Definition emit_analysis (outDir GKey : string) (groupKey : value)
    (config : GeneratorConfig) (val : AnalysisResult) : M unit :=
  write_json
    (path_join tmpDir (GKey +:+ "/" +:+ category val +:+ "_analysis.json"))
    (analysis_value val) >>
  let! text := lift (generateTypes val groupKey config) in
  let! formatted := lift (prettier_format text) in
  writeFileSync (path_join outDir (category val +:+ ".ts")) formatted.

(** One turn of the loop over [this.configMap.values()]. *)
Definition generate_category (this : Generator) (data : RawData)
    (acc : Indexes) (config : GeneratorConfig) : M Indexes :=
  let! groupKey := lift (get_prop config "groupKey") in
  let! GKey := lift (get_prop config "GKey") in
  let! disabled := lift (get_prop config "disabled") in
  if truthy disabled then ret acc
  else
    match GKey with
    | VStr GKey =>
        let outDir := path_join (path_join (targetDir this) "GTypes") GKey in
        let! grouped := lift (group_records data groupKey GKey) in
        let! analysis := lift (analyseAll grouped config) in
        ensureDirectory outDir >>
        ensureDirectory (path_join tmpDir GKey) >>
        write_json (path_join (path_join tmpDir GKey) "grouped.json") grouped >>
        for_each analysis (emit_analysis outDir GKey groupKey config) >>
        let index := category_index groupKey GKey analysis in
        let acc := push_category acc groupKey GKey analysis in
        let! formatted := lift (prettier_format (String.concat nl index +:+ ";")) in
        writeFileSync (path_join outDir "index.ts") formatted >>
        ret acc
    | _ =>
        throw (TypeError "The path argument must be of type string")
    end.

(** The text of the global [GTypes/index.ts] before formatting. *)
Definition global_index (acc : Indexes) : string :=
  let gDataType := gDataType acc ++ ["}"] in
  let gTypesIndex := gTypesIndex acc ++ [String.concat nl gDataType] in
  String.concat nl gTypesIndex.

Definition initial_indexes : Indexes :=
  {| gTypesIndex := []; gDataType := [nl +:+ "export type GData = {"] |}.

Definition generate (this : Generator) : M unit :=
  let! data := lift getGData in
  generateDefaultConfigs this data >>
  let! acc :=
    fold_each (map_values (configMap this)) (generate_category this data)
      initial_indexes in
  let gTypesDir := path_join (targetDir this) "GTypes" in
  let! formatted := lift (prettier_format (global_index acc)) in
  writeFileSync (path_join gTypesDir "index.ts") formatted.

End Generator.

(** ** Reference collaborators

    Concrete stand-ins for the imported modules, used to run the generator
    on examples.  The theorems below do not depend on them. *)
Module Reference.

Definition is_ws (c : ascii) : bool :=
  let n := N_of_ascii c in
  (n =? 32)%N || (n =? 9)%N || (n =? 10)%N || (n =? 13)%N.

Fixpoint skip_ws (s : string) : string :=
  match s with
  | EmptyString => ""
  | String c r => if is_ws c then skip_ws r else s
  end.

Definition hex_value (c : ascii) : option N :=
  let n := N_of_ascii c in
  if (48 <=? n)%N && (n <=? 57)%N then Some (n - 48)%N
  else if (97 <=? n)%N && (n <=? 102)%N then Some (n - 87)%N
  else if (65 <=? n)%N && (n <=? 70)%N then Some (n - 55)%N
  else None.

(** A reader either stops at the offending remainder of the input or
    returns what it read and the rest. *)
Definition reader (A : Type) : Type := string + (A * string).

(** The body of a string literal, after its opening quote; escapes beyond
    the Latin-1 range are outside the fragment. *)
Fixpoint read_string (s : string) : reader string :=
  match s with
  | EmptyString => inl ""
  | String c r =>
      if decide (c = dquote) then inr ("", r)
      else if decide (c = "\"%char) then
        match r with
        | EmptyString => inl ""
        | String e r' =>
            let simple (x : ascii) :=
              match read_string r' with
              | inr (t, rest) => inr (String x t, rest)
              | inl bad => inl bad
              end in
            if decide (e = dquote) then simple dquote
            else if decide (e = "\"%char) then simple "\"%char
            else if decide (e = "/"%char) then simple "/"%char
            else if decide (e = "b"%char) then simple "008"%char
            else if decide (e = "t"%char) then simple "009"%char
            else if decide (e = "n"%char) then simple "010"%char
            else if decide (e = "f"%char) then simple "012"%char
            else if decide (e = "r"%char) then simple "013"%char
            else if decide (e = "u"%char) then
              match r' with
              | String h1 (String h2 (String h3 (String h4 r'') as r4)) =>
                  match hex_value h1, hex_value h2, hex_value h3, hex_value h4 with
                  | Some 0%N, Some 0%N, Some a, Some b =>
                      match read_string r'' with
                      | inr (t, rest) => inr (String (ascii_of_N (16 * a + b)) t, rest)
                      | inl bad => inl bad
                      end
                  | _, _, _, _ => inl r'
                  end
              | _ => inl r'
              end
            else inl r
        end
      else if (N_of_ascii c <? 32)%N then inl s
      else
        match read_string r with
        | inr (t, rest) => inr (String c t, rest)
        | inl bad => inl bad
        end
  end.

Fixpoint read_digits (acc : Z) (s : string) : Z * string :=
  match s with
  | EmptyString => (acc, "")
  | String c r =>
      match Ascii.is_nat c with
      | Some d => read_digits (10 * acc + Z.of_nat d) r
      | None => (acc, s)
      end
  end.

Definition starts_with_digit (s : string) : bool :=
  match s with
  | String c _ => bool_decide (is_Some (Ascii.is_nat c))
  | EmptyString => false
  end.

Fixpoint read_value (fuel : nat) (s : string) : reader value :=
  match fuel with
  | O => inl s
  | S fuel =>
      let s := skip_ws s in
      match s with
      | EmptyString => inl ""
      | String c r =>
          if decide (c = "{"%char) then
            match skip_ws r with
            | String "}" rest => inr (VObj [], rest)
            | r => read_members fuel r []
            end
          else if decide (c = "["%char) then
            match skip_ws r with
            | String "]" rest => inr (VArr [], rest)
            | r => read_items fuel r []
            end
          else if decide (c = dquote) then
            match read_string r with
            | inr (t, rest) => inr (VStr t, rest)
            | inl bad => inl bad
            end
          else if decide (c = "-"%char) then
            if starts_with_digit r
            then let '(n, rest) := read_digits 0 r in inr (VNum (- n), rest)
            else inl r
          else if starts_with_digit s then
            let '(n, rest) := read_digits 0 s in inr (VNum n, rest)
          else
            match strip_prefix "true" s, strip_prefix "false" s, strip_prefix "null" s with
            | Some rest, _, _ => inr (VBool true, rest)
            | _, Some rest, _ => inr (VBool false, rest)
            | _, _, Some rest => inr (VNull, rest)
            | _, _, _ => inl s
            end
      end
  end
with read_members (fuel : nat) (s : string) (acc : list (string * value))
    : reader value :=
  match fuel with
  | O => inl s
  | S fuel =>
      match s with
      | String c r =>
          if decide (c = dquote) then
            match read_string r with
            | inl bad => inl bad
            | inr (k, rest) =>
                match skip_ws rest with
                | String ":" rest =>
                    match read_value fuel rest with
                    | inl bad => inl bad
                    | inr (v, rest) =>
                        let acc := map_set k v acc in
                        match skip_ws rest with
                        | String "," rest => read_members fuel (skip_ws rest) acc
                        | String "}" rest => inr (VObj acc, rest)
                        | bad => inl bad
                        end
                    end
                | bad => inl bad
                end
            end
          else inl s
      | bad => inl bad
      end
  end
with read_items (fuel : nat) (s : string) (acc : list value) : reader value :=
  match fuel with
  | O => inl s
  | S fuel =>
      match read_value fuel s with
      | inl bad => inl bad
      | inr (v, rest) =>
          match skip_ws rest with
          | String "," rest => read_items fuel rest (acc ++ [v])
          | String "]" rest => inr (VArr (acc ++ [v]), rest)
          | bad => inl bad
          end
      end
  end.

(** The message of the [SyntaxError] (as V8 words it). *)
Definition unexpected (text bad : string) : exn :=
  match bad with
  | EmptyString => SyntaxError "Unexpected end of JSON input"
  | String c _ =>
      SyntaxError ("Unexpected token " +:+ String c "" +:+ " in JSON at position "
                   +:+ pretty (N.of_nat (String.length text - String.length bad)))
  end.

(** [JSON.parse] on the fragment of JSON without fractions, exponents and
    escapes beyond Latin-1. *)
Definition JSON_parse (text : string) : exn + value :=
  match read_value (2 * String.length text + 2) text with
  | inl bad => inl (unexpected text bad)
  | inr (v, rest) =>
      match skip_ws rest with
      | EmptyString => inr v
      | bad => inl (unexpected text bad)
      end
  end.

(** Appends [x] to the group named [g], a new group going last. *)
Fixpoint add_to_group {A} (g : string) (x : A) (groups : list (string * list A))
    : list (string * list A) :=
  match groups with
  | [] => [(g, [x])]
  | (g', xs) :: r =>
      if decide (g' = g) then (g', xs ++ [x]) :: r
      else (g', xs) :: add_to_group g x r
  end.

Definition group_of (record groupKey : value) : exn + string :=
  match groupKey with
  | VStr k =>
      match get_prop record k with
      | inr (VStr g) => inr g
      | inr _ => inl (Thrown "groupBy" ("record without " +:+ k))
      | inl e => inl e
      end
  | _ => inl (Thrown "groupBy" "the grouping key is not a string")
  end.

Fixpoint partition_by {A} (record_of : A → value) (groupKey : value) (xs : list A)
    (groups : list (string * list A)) : exn + list (string * list A) :=
  match xs with
  | [] => inr groups
  | x :: r =>
      match group_of (record_of x) groupKey with
      | inl e => inl e
      | inr g => partition_by record_of groupKey r (add_to_group g x groups)
      end
  end.

(** Modelled from the spec: [groupBy] of ./helpers/groupBy, which is not
    part of the embedded file; it partitions the records by the value
    found at [groupKey], groups in first-seen order, records in their
    original relative order, a record without the field being an error. *)
Definition groupBy (records groupKey : value) : exn + value :=
  match records with
  | VArr xs =>
      match partition_by id groupKey xs [] with
      | inl e => inl e
      | inr groups => inr (VObj (map (λ '(g, rs), (g, VArr rs)) groups))
      end
  | VObj ps =>
      match partition_by snd groupKey ps [] with
      | inl e => inl e
      | inr groups => inr (VObj (map (λ '(g, rs), (g, VObj rs)) groups))
      end
  | _ => inl (Thrown "groupBy" "no records")
  end.

Definition member_key (record : value) : list string :=
  match get_prop record "id" with
  | inr (VStr k) => [k]
  | _ => []
  end.

Definition keys_of (members : value) : list string :=
  match members with
  | VObj ps => map fst ps
  | VArr xs => concat (map member_key xs)
  | _ => []
  end.

Definition renamed (config : GeneratorConfig) (group : string) : string :=
  match get_prop config "nameOverride" with
  | inr names =>
      match get_prop names group with
      | inr (VStr n) => n
      | _ => group
      end
  | inl _ => group
  end.

(** Modelled from the spec: [analyseAll] of ./analysis, which is not part
    of the embedded file; one result per group, its category the group
    name renamed through [nameOverride], its keys the observed member
    keys.  The inferred schema is left empty. *)
Definition analyseAll (grouped : value) (config : GeneratorConfig)
    : exn + list AnalysisResult :=
  match grouped with
  | VObj groups =>
      inr (map (λ '(g, members),
                  {| category := renamed config g;
                     keys := keys_of members;
                     detail := [] |}) groups)
  | _ => inl (Thrown "analyseAll" "no groups")
  end.

(** Modelled from the spec: [generateTypes] of ./generateTs, which is not
    part of the embedded file; a key union and a record shape. *)
Definition generateTypes (val : AnalysisResult) (groupKey : value)
    (config : GeneratorConfig) : exn + string :=
  inr ("export type " +:+ category val +:+ "Key = "
       +:+ String.concat " | " (map quote (keys val)) +:+ ";" +:+ nl
       +:+ "export interface G" +:+ category val +:+ " {}").

(** Formatting is layout only: the text is kept as it is. *)
Definition prettier_format (text : string) : exn + string := inr text.

End Reference.

Definition reference (data : RawData) : Collaborators :=
  {| JSON_parse := Reference.JSON_parse;
     getGData := inr data;
     groupBy := Reference.groupBy;
     analyseAll := Reference.analyseAll;
     generateTypes := Reference.generateTypes;
     prettier_format := Reference.prettier_format;
     tmpDir := "tmp" |}.



(** ** Pure readings used in the statements *)

Definition world_of {A} (r : result A) : World :=
  match r with
  | Ok _ w => w
  | Throw _ w => w
  end.

(** The file system part of the world is untouched. *)
Definition frame (w w' : World) : Prop :=
  dirs w' = dirs w ∧ files w' = files w ∧ log w' = log w.

Definition nullish (v : value) : bool :=
  match v with
  | VUndef | VNull => true
  | _ => false
  end.

(** [v.k] where it cannot throw. *)
Definition prop (v : value) (k : string) : value :=
  match get_prop v k with
  | inr x => x
  | inl _ => VUndef
  end.

(** Some config of the list declares [GKey]. *)
Definition declares (configs : list GeneratorConfig) (GKey : string) : bool :=
  existsb (λ c, strict_eq_str (prop c "GKey") GKey) configs.

(** The categories of the dataset that no config declares. *)
Definition missing (this : Generator) (data : RawData) : list string :=
  filter (λ K, K ≠ "version" ∧ declares (map_values (configMap this)) K = false)
    (object_keys data).


(** The file system after a sequence of writes. *)
Definition replay (ws : list (string * string)) (fs : gmap string string)
    : gmap string string :=
  foldl (λ fs pc, <[pc.1 := pc.2]> fs) fs ws.

(** The world after the writes [ws], in this order. *)
Definition written (ws : list (string * string)) (w : World) : World :=
  {| dirs := dirs w; files := replay ws (files w); log := log w ++ ws;
     console := console w |}.


(** The content of the last write to [p] in a log. *)
Definition last_write (p : string) (ws : list (string * string)) : option string :=
  snd <$> last (filter (λ pc, pc.1 = p) ws).










Section Readings.
Context {collab : Collaborators}.




(** [formatted] are the formatted declaration modules of [analysis]. *)
Definition rendered (groupKey : value) (config : GeneratorConfig)
    (val : AnalysisResult) (formatted : string) : Prop :=
  ∃ text, generateTypes val groupKey config = inr text
          ∧ prettier_format text = inr formatted.

(** The writes for one analysis result whose module text is [formatted]. *)
Definition analysis_writes (outDir GKey : string) (val : AnalysisResult)
    (formatted : string) : list (string * string) :=
  [(path_join tmpDir (GKey +:+ "/" +:+ category val +:+ "_analysis.json"),
    serialize "" (analysis_value val));
   (path_join outDir (category val +:+ ".ts"), formatted)].



(** The descriptor files of a directory, in the order [loadConfig] reads
    them. *)
Definition configFiles (dir : string) (w : World) : list string :=
  filter (λ file, extname file = ".json") (listing dir (files w)).

(** The descriptor [file] of [dir] holds a text that is read as [config]. *)
Definition reads (dir : string) (w : World) (file : string) (config : value) : Prop :=
  ∃ text, files w !! path_join dir file = Some text ∧ JSON_parse text = inr config.




(** The config map after the descriptors [loaded] are stored in turn. *)
Definition stored (configs : list (string * GeneratorConfig))
    (loaded : list (string * GeneratorConfig)) : list (string * GeneratorConfig) :=
  foldl (λ m fc, map_set (basename fc.1 ".json") fc.2 m) configs loaded.

End Readings.


(** What a generator is after [new Generator(target)]. *)
Definition fresh (target : string) : Generator :=
  {| configMap := []; targetDir := target; configDir := None |}.

(** ** Example worlds *)
Module Example.

(** The dataset of the end-to-end example, with a second category and the
    metadata key. *)
Definition data : RawData :=
  [("items",
    VArr [VObj [("id", VStr "a"); ("type", VStr "weapon"); ("g", VNum 10)];
          VObj [("id", VStr "b"); ("type", VStr "shield"); ("g", VNum 5)]]);
   ("monsters", VArr [VObj [("id", VStr "goo"); ("hp", VNum 90)]]);
   ("version", VNum 3)].

Definition items_config : GeneratorConfig :=
  VObj [("GKey", VStr "items"); ("groupKey", VStr "type"); ("overrides", VObj []);
        ("extractedTypes", VObj []); ("description", VObj []);
        ("nameOverride", VObj [])].

(** The text of the descriptor file of [items]. *)
Definition items_descriptor : string := serialize "" items_config.

(** An enabled descriptor without grouping. *)
Definition plain_config (GKey : string) : GeneratorConfig :=
  VObj [("GKey", VStr GKey); ("groupKey", VNull); ("overrides", VObj []);
        ("extractedTypes", VObj []); ("description", VObj []);
        ("nameOverride", VObj [])].

Definition world : World :=
  {| dirs := {["configs"]};
     files := {["configs/items.json" := items_descriptor]};
     log := []; console := [] |}.

(** The generator once [world]'s descriptors are loaded. *)
Definition loaded : Generator :=
  {| configMap := [("items", items_config)]; targetDir := "out";
     configDir := Some "configs" |}.

Definition weapon : AnalysisResult :=
  {| category := "weapon"; keys := ["a"]; detail := [] |}.

Definition shield : AnalysisResult :=
  {| category := "shield"; keys := ["b"]; detail := [] |}.










End Example.



(** ** Readings for the rest of the class *)

(** [w'] is [w] after some writes, with the directories of [w] still
    there: nothing is taken away. *)
Definition appended (w w' : World) : Prop :=
  ∃ ws, log w' = log w ++ ws ∧ files w' = replay ws (files w) ∧ dirs w ⊆ dirs w'.

(** A computation that only appends, however it ends. *)
Definition grows {A} (m : M A) : Prop := ∀ w, appended w (world_of (m w)).



(** The path of the debug snapshot of one analysis result. *)
Definition snapshot_path {collab : Collaborators} (GKey : string) (val : AnalysisResult)
    : string :=
  path_join tmpDir (GKey +:+ "/" +:+ category val +:+ "_analysis.json").



(** A formatter that rejects a text with a hyphen in it (a hyphen is no
    part of an identifier), and keeps any other text as it is. *)
Definition strict_format (text : string) : exn + string :=
  if includes text "-" then inl (SyntaxError "Unexpected token") else inr text.

Definition strict (data : RawData) : Collaborators :=
  {| JSON_parse := Reference.JSON_parse;
     getGData := inr data;
     groupBy := Reference.groupBy;
     analyseAll := Reference.analyseAll;
     generateTypes := Reference.generateTypes;
     prettier_format := strict_format;
     tmpDir := "tmp" |}.

Definition two_handed : AnalysisResult :=
  {| category := "two-handed"; keys := ["c"]; detail := [] |}.

(** A directory with a descriptor and a file that is none. *)
Definition mixed_world : World :=
  {| dirs := {["configs"]};
     files := {["configs/items.json" := serialize "" Example.items_config;
                "configs/notes.txt" := "not a descriptor"]};
     log := []; console := [] |}.


(** A generator whose first config is [null]. *)
Definition with_null : Generator :=
  {| configMap := [("broken", VNull); ("items", Example.items_config)];
     targetDir := "out"; configDir := Some "configs" |}.

(** ** The monad *)

Lemma bind_Ok {A B} (m : M A) (k : A → M B) w b w' :
  bind m k w = Ok b w' ↔ ∃ a w1, m w = Ok a w1 ∧ k a w1 = Ok b w'.
Proof.
  unfold bind. destruct (m w) as [a w1|e w1]; split.
  - intros Hk. by exists a, w1.
  - by intros (a' & w2 & [= -> ->] & Hk).
  - done.
  - by intros (a' & w2 & [=] & _).
Qed.

Lemma bind_Throw {A B} (m : M A) (k : A → M B) w e w' :
  bind m k w = Throw e w'
  ↔ m w = Throw e w' ∨ ∃ a w1, m w = Ok a w1 ∧ k a w1 = Throw e w'.
Proof.
  unfold bind. destruct (m w) as [a w1|e1 w1]; split.
  - intros Hk. right. by exists a, w1.
  - intros [[=]|(a' & w2 & [= -> ->] & Hk)]. done.
  - intros [= -> ->]. by left.
  - intros [[= -> ->]|(a' & w2 & [=] & _)]. done.
Qed.

Lemma lift_Ok {A} (r : exn + A) w a w' :
  lift r w = Ok a w' ↔ r = inr a ∧ w' = w.
Proof.
  destruct r as [e|x]; simpl; unfold throw, ret; split.
  - done.
  - by intros [[=] _].
  - by intros [= -> ->].
  - by intros [[= ->] ->].
Qed.

Lemma frame_refl w : frame w w.
Proof. by unfold frame. Qed.

Lemma frame_trans w1 w2 w3 : frame w1 w2 → frame w2 w3 → frame w1 w3.
Proof. unfold frame. intros (-> & -> & ->) (-> & -> & ->). done. Qed.

Lemma get_prop_prop v k : nullish v = false → get_prop v k = inr (prop v k).
Proof. unfold prop. by destruct v. Qed.

(** ** Paths and the replayed file system *)

Lemma append_String c s t : String c s +:+ t = String c (s +:+ t).
Proof. reflexivity. Qed.

Lemma append_assoc s t u : (s +:+ t) +:+ u = s +:+ t +:+ u.
Proof. induction s; [done|]. rewrite !append_String. congruence. Qed.

Lemma append_inj_r s t u : s +:+ t = s +:+ u → t = u.
Proof.
  induction s; intros E; [done|]. rewrite !append_String in E. injection E. auto.
Qed.


Lemma str_chars s : str (chars s) = s.
Proof. apply string_of_list_ascii_of_string. Qed.




Lemma replay_app ws ws' fs : replay (ws ++ ws') fs = replay ws' (replay ws fs).
Proof. unfold replay. apply foldl_app. Qed.



Section Scaffolding.
Context {collab : Collaborators}.

(** The search for a declaring config changes the console only. *)
Lemma declared_frame configs K w :
  frame w (world_of (declared configs K w)).
Proof.
  revert w. induction configs as [|c configs IH]; intros w; simpl.
  - apply frame_refl.
  - unfold bind at 1.
    destruct (get_prop c "GKey") as [e|k]; simpl; [apply frame_refl|].
    unfold ret at 1. destruct (strict_eq_str k K); [|apply IH].
    unfold bind, console_log, ret; simpl. by unfold frame.
Qed.

Lemma declared_ok configs K w :
  Forall (λ c, nullish c = false) configs →
  ∃ w', declared configs K w = Ok (declares configs K) w' ∧ frame w w'.
Proof.
  intros Hcs. revert w. induction Hcs as [|c configs Hc _ IH]; intros w; simpl.
  - exists w. split; [done|apply frame_refl].
  - unfold bind at 1. rewrite (get_prop_prop _ _ Hc). simpl. unfold ret at 1.
    destruct (strict_eq_str (prop c "GKey") K); simpl; [|apply IH].
    eexists. split; [reflexivity|]. by unfold frame.
Qed.





Lemma scaffold_category_frame this K w :
  configDir_set this = None →
  frame w (world_of (scaffold_category this K w)).
Proof.
  intros Hdir. unfold scaffold_category.
  destruct (decide (K = "version")); [apply frame_refl|].
  unfold bind.
  pose proof (declared_frame (map_values (configMap this)) K w) as Hf.
  destruct (declared _ K w) as [[] w1|e w1]; simpl in *; [done| |done].
  by rewrite Hdir.
Qed.

(** Without a descriptor directory nothing is written, whatever happens. *)
Lemma generateDefaultConfigs_frame this data w :
  configDir_set this = None →
  frame w (world_of (generateDefaultConfigs this data w)).
Proof.
  intros Hdir. unfold generateDefaultConfigs. revert w.
  induction data as [|[K v] data IH]; intros w; simpl; [apply frame_refl|].
  unfold bind.
  pose proof (scaffold_category_frame this K w Hdir) as Hf.
  destruct (scaffold_category this K w) as [[] w1|e w1]; simpl in *; [|done].
  eapply frame_trans; [exact Hf|apply IH].
Qed.

Lemma scaffold_category_no_dir_ok this K w :
  configDir_set this = None →
  Forall (λ c, nullish c = false) (map_values (configMap this)) →
  ∃ w', scaffold_category this K w = Ok tt w'.
Proof.
  intros Hdir Hcs. unfold scaffold_category.
  destruct (decide (K = "version")); [by exists w|].
  destruct (declared_ok (map_values (configMap this)) K w Hcs) as (w1 & Hd & _).
  unfold bind. rewrite Hd, Hdir. exists w1. by destruct (declares _ K).
Qed.

Lemma generateDefaultConfigs_no_dir_ok this data w :
  configDir_set this = None →
  Forall (λ c, nullish c = false) (map_values (configMap this)) →
  ∃ w', generateDefaultConfigs this data w = Ok tt w'.
Proof.
  intros Hdir Hcs. unfold generateDefaultConfigs. revert w.
  induction data as [|[K v] data IH]; intros w; simpl; [by exists w|].
  destruct (scaffold_category_no_dir_ok this K w Hdir Hcs) as (w1 & Hrun).
  unfold bind. rewrite Hrun. apply IH.
Qed.

End Scaffolding.


(** ** One turn of the loop of [generate] *)

Lemma written_nil w : written [] w = w.
Proof. destruct w. unfold written. simpl. by rewrite app_nil_r. Qed.

Lemma written_written ws ws' w : written ws' (written ws w) = written (ws ++ ws') w.
Proof. unfold written. simpl. by rewrite replay_app, app_assoc. Qed.

Lemma writeFileSync_written p c w : writeFileSync p c w = Ok tt (written [(p, c)] w).
Proof. reflexivity. Qed.

Lemma write_json_written p v w :
  v ≠ VUndef → write_json p v w = Ok tt (written [(p, serialize "" v)] w).
Proof. intros Hv. unfold write_json. by destruct v. Qed.

Lemma for_each_cons_Ok {A} (x : A) xs body w w' :
  for_each (x :: xs) body w = Ok tt w'
  ↔ ∃ w1, body x w = Ok tt w1 ∧ for_each xs body w1 = Ok tt w'.
Proof.
  simpl. rewrite bind_Ok. split.
  - intros ([] & w1 & ? & ?). eauto.
  - intros (w1 & ? & ?). exists tt, w1. eauto.
Qed.

Lemma fold_each_cons_Ok {A S} (x : A) xs (body : S → A → M S) s w s' w' :
  fold_each (x :: xs) body s w = Ok s' w'
  ↔ ∃ s1 w1, body s x w = Ok s1 w1 ∧ fold_each xs body s1 w1 = Ok s' w'.
Proof. simpl. by rewrite bind_Ok. Qed.


Section Turn.
Context {collab : Collaborators}.

Lemma emit_analysis_Ok outDir GKey groupKey config val w w' :
  emit_analysis outDir GKey groupKey config val w = Ok tt w'
  ↔ ∃ formatted, rendered groupKey config val formatted
                 ∧ w' = written (analysis_writes outDir GKey val formatted) w.
Proof.
  unfold emit_analysis, rendered, bind.
  rewrite write_json_written by done.
  destruct (generateTypes val groupKey config) as [e|text] eqn:Hgen; simpl.
  { split; [done|]. by intros (? & (? & [=] & _) & _). }
  destruct (prettier_format text) as [e|formatted] eqn:Hfmt; simpl.
  { split; [done|]. intros (? & (? & [= <-] & He) & _). congruence. }
  rewrite writeFileSync_written, written_written. split.
  - intros [= <-]. exists formatted. eauto.
  - intros (f & (t & [= <-] & Hf) & ->).
    assert (f = formatted) as -> by congruence. reflexivity.
Qed.

Lemma emit_all_Ok outDir GKey groupKey config analysis w w' :
  for_each analysis (emit_analysis outDir GKey groupKey config) w = Ok tt w'
  ↔ ∃ modules,
      Forall2 (rendered groupKey config) analysis modules
      ∧ w' = written
               (concat (zip_with (analysis_writes outDir GKey) analysis modules)) w.
Proof.
  revert w. induction analysis as [|val analysis IH]; intros w.
  - simpl. unfold ret. split.
    + intros [= <-]. exists []. split; [constructor|]. by rewrite written_nil.
    + intros (modules & Hm & ->). apply Forall2_nil_inv_l in Hm as ->.
      simpl. by rewrite written_nil.
  - rewrite for_each_cons_Ok. split.
    + intros (w1 & Hval & Hrest). apply emit_analysis_Ok in Hval as (m & Hm & ->).
      apply IH in Hrest as (modules & Hms & ->). exists (m :: modules).
      split; [by constructor|]. by rewrite written_written.
    + intros (modules & Hms & ->).
      apply Forall2_cons_inv_l in Hms as (m & modules' & Hm & Hms & ->).
      eexists. split; [apply emit_analysis_Ok; eauto|].
      apply IH. exists modules'. split; [done|]. by rewrite written_written.
Qed.



End Turn.

(** ** The whole loop *)


Section Loop.
Context {collab : Collaborators}.












End Loop.

(** ** Scaffolding of default descriptors *)




(** C10: when no descriptor directory is set ([loadConfig] was never
    called), [generateDefaultConfigs] writes nothing, whatever the dataset
    and however many of its categories lack a config: the directories, the
    files and the write log are left as they were, and (the configs being
    objects) the call completes without an exception. *)
Theorem generateDefaultConfigs_without_directory this data w :
  configDir this = None →
  frame w (world_of (generateDefaultConfigs this data w))
  ∧ (Forall (λ c, nullish c = false) (map_values (configMap this)) →
     ∃ w', generateDefaultConfigs this data w = Ok tt w' ∧ frame w w').
Proof.
  intros Hdir.
  assert (configDir_set this = None) as Hset by (unfold configDir_set; by rewrite Hdir).
  pose proof (generateDefaultConfigs_frame this data w Hset) as Hframe.
  split; [done|]. intros Hcs.
  destruct (generateDefaultConfigs_no_dir_ok this data w Hset Hcs) as [w' Hrun].
  exists w'. split; [done|]. by rewrite Hrun in Hframe.
Qed.

Lemma generateDefaultConfigs_without_directory_witness :
  configDir (fresh "out") = None
  ∧ missing (fresh "out") Example.data = ["items"; "monsters"]
  ∧ frame Example.world
      (world_of (generateDefaultConfigs
                   (fresh "out") Example.data Example.world))
  ∧ ∃ w', generateDefaultConfigs
            (fresh "out") Example.data Example.world = Ok tt w'
          ∧ frame Example.world w'.
Proof.
  split; [reflexivity|]. split; [reflexivity|].
  destruct (generateDefaultConfigs_without_directory
              (fresh "out") Example.data Example.world eq_refl) as [Hframe Hok].
  split; [exact Hframe|]. apply Hok. constructor.
Defined.





(** ** The text assembled for a grouped category *)

Lemma strip_prefix_append p s : strip_prefix p (p +:+ s) = Some s.
Proof.
  induction p as [|c p IH]; [done|]. rewrite append_String. simpl.
  by rewrite decide_True.
Qed.









Section Grouped.
Context {collab : Collaborators}.



End Grouped.











(** ** Name collisions *)





(** ** Names of descriptor files *)

Lemma length_append s t : String.length (s +:+ t) = String.length s + String.length t.
Proof. induction s; [done|]. rewrite append_String. simpl. congruence. Qed.

Lemma append_ne_suffix c s t : String c s +:+ t ≠ t.
Proof.
  intros E. apply (f_equal String.length) in E. rewrite length_append in E.
  simpl in E. lia.
Qed.

Lemma strip_suffix_append stem suffix : strip_suffix suffix (stem +:+ suffix) = Some stem.
Proof.
  induction stem as [|c stem IH].
  - change ("" +:+ suffix) with suffix. destruct suffix as [|a t]; [done|].
    simpl. by rewrite decide_True.
  - pose proof (append_ne_suffix c stem suffix) as Hne.
    rewrite append_String in *. simpl. rewrite decide_False by done.
    by rewrite IH.
Qed.

Lemma has_char_append c s t : has_char c (s +:+ t) = has_char c s || has_char c t.
Proof.
  induction s as [|a s IH]; [done|]. rewrite append_String. simpl.
  by destruct (decide (a = c)).
Qed.

Lemma has_char_chars c s :
  has_char c s = false ↔ Forall (λ a, a ≠ c) (chars s).
Proof.
  unfold chars. induction s as [|a s IH]; simpl.
  - split; [constructor|done].
  - rewrite Forall_cons, <- IH. destruct (decide (a = c)) as [Heq|Hne].
    + split; [done|]. by intros [? _].
    + split; [by intros ?|by intros [_ ?]].
Qed.

Lemma drop_while_none {A} (p : A → bool) l :
  Forall (λ x, p x = false) l → drop_while p l = l.
Proof. destruct 1 as [|x l Hx _]; simpl; [done|]. by rewrite Hx. Qed.

Lemma take_while_all {A} (p : A → bool) l :
  Forall (λ x, p x = true) l → take_while p l = l.
Proof. induction 1 as [|x l Hx _ IH]; simpl; [done|]. by rewrite Hx, IH. Qed.

Lemma last_portion_plain n : has_char "/" n = false → last_portion n = n.
Proof.
  intros Hn. apply has_char_chars in Hn. unfold last_portion.
  assert (Forall (λ c, is_slash c = false) (rev (chars n))) as Hrev.
  { apply Forall_rev. eapply Forall_impl; [exact Hn|].
    intros c Hc. unfold is_slash. by rewrite bool_decide_eq_false. }
  rewrite drop_while_none by done.
  rewrite take_while_all.
  - by rewrite rev_involutive, str_chars.
  - eapply Forall_impl; [exact Hrev|]. by intros c ->.
Qed.

Lemma from_last_dot_json r : from_last_dot (r +:+ ".json") = Some ".json".
Proof.
  induction r as [|c r IH]; [done|]. rewrite append_String. simpl. by rewrite IH.
Qed.

Lemma from_last_dot_suffix r e : from_last_dot r = Some e → ∃ pre, r = pre +:+ e.
Proof.
  revert e. induction r as [|c r IH]; intros e; simpl; [done|].
  destruct (from_last_dot r) as [e'|].
  - intros [= <-]. destruct (IH e' eq_refl) as [pre ->]. by exists (String c pre).
  - destruct (decide (c = "."%char)); [|done]. intros [= <-]. by exists "".
Qed.

(** A name without separator has extension [.json] exactly when it is a
    non-empty stem followed by [.json]. *)
Lemma extname_json stem :
  stem ≠ "" → has_char "/" stem = false → extname (stem +:+ ".json") = ".json".
Proof.
  intros Hne Hplain. unfold extname.
  rewrite last_portion_plain by (by rewrite has_char_append, Hplain).
  destruct stem as [|c r]; [done|]. rewrite append_String.
  rewrite decide_False.
  - by rewrite from_last_dot_json.
  - intros E. apply (f_equal String.length) in E. simpl in E.
    rewrite length_append in E. simpl in E. lia.
Qed.

Lemma extname_json_inv n :
  has_char "/" n = false → extname n = ".json" →
  ∃ stem, stem ≠ "" ∧ n = stem +:+ ".json".
Proof.
  intros Hplain. unfold extname. rewrite last_portion_plain by done.
  destruct n as [|c r]; [done|]. destruct (decide _); [done|].
  destruct (from_last_dot r) as [e|] eqn:He; [|done]. simpl. intros ->.
  apply from_last_dot_suffix in He as [pre ->]. by exists (String c pre).
Qed.

Lemma basename_json stem :
  stem ≠ "" → has_char "/" stem = false → basename (stem +:+ ".json") ".json" = stem.
Proof.
  intros Hne Hplain. unfold basename.
  rewrite last_portion_plain by (by rewrite has_char_append, Hplain).
  assert (stem +:+ ".json" ≠ ".json") as Hlong.
  { destruct stem; [done|]. apply append_ne_suffix. }
  rewrite decide_False by done. rewrite !(decide_False (P := _ +:+ _ = _)) by done.
  by rewrite strip_suffix_append.
Qed.

(** ** The entries of a directory *)

Lemma strip_prefix_Some p s r : strip_prefix p s = Some r ↔ s = p +:+ r.
Proof.
  revert s. induction p as [|a p IH]; intros s; simpl.
  - split; [by intros [= ->]|by intros ->].
  - destruct s as [|b s]; [done|]. rewrite append_String.
    destruct (decide (a = b)) as [->|Hab].
    + rewrite IH. split; [by intros ->|by intros [= ->]].
    + split; [done|]. by intros [= ? _].
Qed.

Lemma child_of_Some d p n :
  child_of d p = Some n ↔ p = path_join d n ∧ has_char "/" n = false.
Proof.
  unfold child_of, path_join.
  destruct (strip_prefix (d +:+ "/") p) as [m|] eqn:Hm.
  - apply strip_prefix_Some in Hm as ->. rewrite append_assoc.
    destruct (has_char "/" m) eqn:Hs.
    + split; [done|]. intros [E Hn]. apply append_inj_r, append_inj_r in E.
      congruence.
    + split; [by intros [= ->]|]. intros [E _].
      by apply append_inj_r, append_inj_r in E as ->.
  - split; [done|]. intros [-> _].
    rewrite <- append_assoc, strip_prefix_append in Hm. done.
Qed.

Lemma elem_of_listing d (fs : gmap string string) n :
  n ∈ listing d fs ↔ has_char "/" n = false ∧ is_Some (fs !! path_join d n).
Proof.
  unfold listing. rewrite list_elem_of_omap. split.
  - intros (p & Hp & Hn). apply child_of_Some in Hn as [-> Hn]. split; [done|].
    apply list_elem_of_fmap in Hp as ([p c] & -> & Hpc).
    apply elem_of_map_to_list in Hpc. by exists c.
  - intros [Hn [c Hc]]. exists (path_join d n). split; [|by apply child_of_Some].
    apply elem_of_map_to_list in Hc.
    by apply (list_elem_of_fmap_2 fst) in Hc.
Qed.

Lemma NoDup_omap_inj {A B} (f : A → option B) l :
  (∀ x y z, f x = Some z → f y = Some z → x = y) → NoDup l → NoDup (omap f l).
Proof.
  intros Hinj. induction 1 as [|x l Hx _ IH]; simpl; [constructor|].
  destruct (f x) as [z|] eqn:Hz; [|done]. constructor; [|done].
  rewrite list_elem_of_omap. intros (y & Hy & Hfy).
  by rewrite (Hinj x y z) in Hx.
Qed.

Lemma NoDup_listing d (fs : gmap string string) : NoDup (listing d fs).
Proof.
  apply NoDup_omap_inj; [|apply NoDup_fst_map_to_list].
  intros p q n Hp Hq. apply child_of_Some in Hp as [-> _].
  by apply child_of_Some in Hq as [-> _].
Qed.

Lemma configFiles_name dir w file :
  file ∈ configFiles dir w
  ↔ is_Some (files w !! path_join dir file)
    ∧ ∃ stem, stem ≠ "" ∧ has_char "/" stem = false ∧ file = stem +:+ ".json".
Proof.
  unfold configFiles. rewrite list_elem_of_filter, elem_of_listing. split.
  - intros (Hext & Hplain & Hfile). split; [done|].
    destruct (extname_json_inv file Hplain Hext) as (stem & Hne & ->).
    exists stem. rewrite has_char_append in Hplain.
    apply orb_false_iff in Hplain as [Hplain _]. done.
  - intros (Hfile & stem & Hne & Hplain & ->). split_and!; try done.
    + by apply extname_json.
    + by rewrite has_char_append, Hplain.
Qed.

Lemma configFiles_basename_inj dir w f f' :
  f ∈ configFiles dir w → f' ∈ configFiles dir w →
  basename f ".json" = basename f' ".json" → f = f'.
Proof.
  intros Hf Hf'. apply configFiles_name in Hf as (_ & stem & ? & ? & ->).
  apply configFiles_name in Hf' as (_ & stem' & ? & ? & ->).
  rewrite !basename_json by done. by intros ->.
Qed.

Lemma NoDup_configFiles dir w : NoDup (configFiles dir w).
Proof. apply NoDup_filter, NoDup_listing. Qed.

(** ** The config map *)

Lemma assoc_map_set_eq {A} k (x : A) m : assoc k (map_set k x m) = Some x.
Proof.
  induction m as [|[k' y] m IH]; simpl.
  - by rewrite decide_True.
  - destruct (decide (k' = k)) as [->|Hne]; simpl.
    + by rewrite decide_True.
    + by rewrite decide_False.
Qed.

Lemma assoc_map_set_ne {A} k k' (x : A) m :
  k ≠ k' → assoc k' (map_set k x m) = assoc k' m.
Proof.
  intros Hne. induction m as [|[k0 y] m IH]; simpl.
  - by rewrite decide_False.
  - destruct (decide (k0 = k)) as [->|Hk0]; simpl.
    + by rewrite !decide_False.
    + destruct (decide (k0 = k')); [done|apply IH].
Qed.


Lemma elem_of_map_set {A} k (x : A) m k' y :
  (k', y) ∈ map_set k x m → (k' = k ∧ y = x) ∨ (k', y) ∈ m.
Proof.
  induction m as [|[k0 z] m IH]; simpl.
  - intros [[= -> ->]|Hin]%elem_of_cons; [by left|by apply elem_of_nil in Hin].
  - destruct (decide (k0 = k)) as [->|Hne].
    + intros [[= -> ->]|Hin]%elem_of_cons; [by left|]. right. by right.
    + intros [[= -> ->]|Hin]%elem_of_cons; [right; by left|].
      destruct (IH Hin) as [?|?]; [by left|]. right. by right.
Qed.

Lemma assoc_stored_other configs loaded k :
  k ∉ (λ fc, basename fc.1 ".json") <$> loaded →
  assoc k (stored configs loaded) = assoc k configs.
Proof.
  revert configs. induction loaded as [|[f c] loaded IH]; intros configs Hk; [done|].
  simpl in *. apply not_elem_of_cons in Hk as [Hne Hk].
  unfold stored in *. simpl. rewrite IH by done. by apply assoc_map_set_ne.
Qed.

Lemma assoc_stored_in configs loaded f c :
  NoDup ((λ fc, basename fc.1 ".json") <$> loaded) →
  (f, c) ∈ loaded →
  assoc (basename f ".json") (stored configs loaded) = Some c.
Proof.
  revert configs. induction loaded as [|[f0 c0] loaded IH]; intros configs Hnd Hin.
  - by apply elem_of_nil in Hin.
  - simpl in Hnd. apply NoDup_cons in Hnd as [Hf0 Hnd].
    apply elem_of_cons in Hin as [[= -> ->]|Hin].
    + change (assoc (basename f0 ".json")
                (stored (map_set (basename f0 ".json") c0 configs) loaded) = Some c0).
      rewrite assoc_stored_other by done. apply assoc_map_set_eq.
    + by apply IH.
Qed.

Lemma elem_of_stored configs loaded k c :
  (k, c) ∈ stored configs loaded →
  (k, c) ∈ configs ∨ ∃ f, (f, c) ∈ loaded ∧ k = basename f ".json".
Proof.
  revert configs. induction loaded as [|[f0 c0] loaded IH]; intros configs Hin.
  - by left.
  - apply IH in Hin as [Hin|(f & Hf & ->)].
    + apply elem_of_map_set in Hin as [[-> ->]|Hin]; [|by left].
      right. exists f0. split; [by left|done].
    + right. exists f. split; [by right|done].
Qed.

Section Loading.
Context {collab : Collaborators}.

Lemma load_descriptor_Ok dir this file this' w w' :
  load_descriptor dir this file w = Ok this' w'
  ↔ w' = w
    ∧ ∃ config,
        reads dir w file config
        ∧ this' = {| configMap := map_set (basename file ".json") config (configMap this);
                     targetDir := targetDir this;
                     configDir := configDir this |}.
Proof.
  unfold load_descriptor, reads, bind, readFileSync.
  destruct (files w !! path_join dir file) as [text|]; simpl.
  - destruct (JSON_parse text) as [e|config] eqn:Hparse; simpl; unfold ret.
    + split; [done|]. intros (_ & c & (t & [= <-] & Ht) & _). congruence.
    + split.
      * intros [= <- <-]. split; [done|]. exists config. split; [|done]. by exists text.
      * intros (-> & c & (t & [= <-] & Ht) & ->). congruence.
  - split; [done|]. by intros (_ & c & (t & [=] & _) & _).
Qed.

Lemma load_descriptor_Throw dir this file e w w' :
  load_descriptor dir this file w = Throw e w' →
  w' = w
  ∧ ((files w !! path_join dir file = None ∧ e = ENOENT "open" (path_join dir file))
     ∨ ∃ text, files w !! path_join dir file = Some text ∧ JSON_parse text = inl e).
Proof.
  unfold load_descriptor, bind, readFileSync.
  destruct (files w !! path_join dir file) as [text|]; simpl.
  - destruct (JSON_parse text) as [e'|config] eqn:Hparse; simpl; unfold ret; [|done].
    intros [= <- <-]. split; [done|]. right. by exists text.
  - intros [= <- <-]. split; [done|]. by left.
Qed.

Lemma load_all_Ok dir fs this this' w w' :
  fold_each fs (load_descriptor dir) this w = Ok this' w'
  ↔ w' = w
    ∧ ∃ configs,
        Forall2 (reads dir w) fs configs
        ∧ this' = {| configMap := stored (configMap this) (zip fs configs);
                     targetDir := targetDir this;
                     configDir := configDir this |}.
Proof.
  revert this. induction fs as [|f fs IH]; intros this.
  - simpl. unfold ret. split.
    + intros [= <- <-]. split; [done|]. exists []. split; [constructor|].
      by destruct this.
    + intros (-> & configs & Hcs & ->). apply Forall2_nil_inv_l in Hcs as ->.
      by destruct this.
  - rewrite fold_each_cons_Ok. split.
    + intros (this1 & w1 & Hf & Hrest).
      apply load_descriptor_Ok in Hf as (-> & c & Hc & ->).
      apply IH in Hrest as (-> & configs & Hcs & ->).
      split; [done|]. exists (c :: configs). split; [by constructor|done].
    + intros (-> & configs & Hcs & ->).
      apply Forall2_cons_inv_l in Hcs as (c & cs & Hc & Hcs & ->).
      eexists _, w. split; [apply load_descriptor_Ok; eauto|].
      apply IH. split; [done|]. by exists cs.
Qed.

Lemma load_all_Throw dir fs this e w w' :
  fold_each fs (load_descriptor dir) this w = Throw e w' →
  w' = w
  ∧ ∃ file, file ∈ fs
      ∧ ((files w !! path_join dir file = None
          ∧ e = ENOENT "open" (path_join dir file))
         ∨ ∃ text, files w !! path_join dir file = Some text
                   ∧ JSON_parse text = inl e).
Proof.
  revert this. induction fs as [|f fs IH]; intros this; [done|].
  simpl. rewrite bind_Throw. intros [Hf|(this1 & w1 & Hf & Hrest)].
  - apply load_descriptor_Throw in Hf as [-> Hf]. split; [done|].
    exists f. split; [by left|done].
  - apply load_descriptor_Ok in Hf as (-> & _).
    apply IH in Hrest as (-> & file & Hin & Hfile). split; [done|].
    exists file. split; [by right|done].
Qed.

Lemma loadConfig_Ok this dir this' w w' :
  loadConfig this dir w = Ok this' w'
  ↔ dir ≠ "" ∧ dir ∈ dirs w ∧ w' = w
    ∧ ∃ configs,
        Forall2 (reads dir w) (configFiles dir w) configs
        ∧ this' = {| configMap := stored (configMap this)
                                    (zip (configFiles dir w) configs);
                     targetDir := targetDir this;
                     configDir := Some dir |}.
Proof.
  unfold loadConfig, bind, readdirSync.
  destruct (decide (dir ≠ "" ∧ dir ∈ dirs w)) as [[Hne Hin]|Hno].
  - fold (configFiles dir w). rewrite load_all_Ok. simpl. split.
    + intros (-> & configs & Hcs & ->). eauto 10.
    + intros (_ & _ & -> & configs & Hcs & ->). eauto.
  - split; [done|]. intros (? & ? & _). tauto.
Qed.

Lemma loadConfig_Throw this dir e w w' :
  loadConfig this dir w = Throw e w' →
  w' = w
  ∧ ((¬ (dir ≠ "" ∧ dir ∈ dirs w) ∧ e = ENOENT "scandir" dir)
     ∨ ∃ file text, file ∈ configFiles dir w
                    ∧ files w !! path_join dir file = Some text
                    ∧ JSON_parse text = inl e).
Proof.
  unfold loadConfig, bind, readdirSync.
  destruct (decide (dir ≠ "" ∧ dir ∈ dirs w)) as [[Hne Hin]|Hno].
  - fold (configFiles dir w). intros Hrun.
    apply load_all_Throw in Hrun as (-> & file & Hfile & Hcase). split; [done|].
    right. destruct Hcase as [[Hnone _]|(text & Htext & He)].
    + apply configFiles_name in Hfile as [[t Ht] _]. congruence.
    + by exists file, text.
  - intros [= <- <-]. split; [done|]. by left.
Qed.

Lemma read_all dir w fs :
  (∀ file text, file ∈ fs → files w !! path_join dir file = Some text →
                ∃ config, JSON_parse text = inr config) →
  (∀ file, file ∈ fs → is_Some (files w !! path_join dir file)) →
  ∃ configs, Forall2 (reads dir w) fs configs.
Proof.
  induction fs as [|f fs IH]; intros Hparse Hfiles.
  - exists []. constructor.
  - destruct IH as [configs Hcs].
    + intros file text Hin. apply Hparse. by right.
    + intros file Hin. apply Hfiles. by right.
    + destruct (Hfiles f) as [text Htext]; [by left|].
      destruct (Hparse f text) as [c Hc]; [by left|done|].
      exists (c :: configs). constructor; [|done]. by exists text.
Qed.

(** Every descriptor that parses is kept, under the stem of its file. *)
Lemma loadConfig_completes this dir w :
  dir ≠ "" → dir ∈ dirs w →
  (∀ file text, file ∈ configFiles dir w →
                files w !! path_join dir file = Some text →
                ∃ config, JSON_parse text = inr config) →
  ∃ this',
    loadConfig this dir w = Ok this' w
    ∧ targetDir this' = targetDir this
    ∧ configDir this' = Some dir
    ∧ (∀ file config, file ∈ configFiles dir w → reads dir w file config →
                      assoc (basename file ".json") (configMap this') = Some config)
    ∧ (∀ k config, (k, config) ∈ configMap this' →
                   (k, config) ∈ configMap this
                   ∨ ∃ file, file ∈ configFiles dir w ∧ reads dir w file config
                             ∧ k = basename file ".json").
Proof.
  intros Hne Hdir Hparse.
  destruct (read_all dir w (configFiles dir w) Hparse) as [configs Hcs].
  { intros file Hfile. by apply configFiles_name in Hfile as [? _]. }
  eexists. split; [apply loadConfig_Ok; eauto 10|]. simpl.
  assert (∀ file config, (file, config) ∈ zip (configFiles dir w) configs →
                         file ∈ configFiles dir w ∧ reads dir w file config) as Hzip.
  { intros file config Hin. apply list_elem_of_lookup in Hin as [i Hi].
    apply lookup_zip_with_Some in Hi as (f & c & [= <- <-] & Hf & Hc).
    split; [by eapply list_elem_of_lookup_2|].
    eapply Forall2_lookup_lr; eauto. }
  assert (NoDup ((λ fc, basename fc.1 ".json") <$> zip (configFiles dir w) configs))
    as Hnd.
  { apply NoDup_fmap_2_strong.
    - intros [f c] [f' c'] Hin Hin' Heq. simpl in Heq.
      destruct (Hzip _ _ Hin) as [Hf [t [Ht Hp]]].
      destruct (Hzip _ _ Hin') as [Hf' [t' [Ht' Hp']]].
      pose proof (configFiles_basename_inj dir w f f' Hf Hf' Heq) as <-.
      congruence.
    - eapply NoDup_fmap_1 with (f := fst). rewrite fst_zip.
      + apply NoDup_configFiles.
      + by rewrite (Forall2_length _ _ _ Hcs). }
  split_and!; try done.
  - intros file config Hfile [text [Htext Hconfig]].
    apply assoc_stored_in; [done|].
    apply list_elem_of_lookup in Hfile as [i Hi].
    destruct (Forall2_lookup_l _ _ _ _ _ Hcs Hi) as (c & Hc & [t [Ht Hp]]).
    assert (c = config) as -> by congruence.
    apply list_elem_of_lookup. exists i. apply lookup_zip_with_Some. eauto.
  - intros k config Hin. apply elem_of_stored in Hin as [Hin|(f & Hf & ->)]; [by left|].
    right. exists f. destruct (Hzip _ _ Hf). done.
Qed.

End Loading.

(** ** Malformed descriptors *)




(** ** Writes to the same path *)

Lemma last_write_app p ws ws' :
  last_write p (ws ++ ws')
  = match last_write p ws' with
    | Some c => Some c
    | None => last_write p ws
    end.
Proof.
  unfold last_write. rewrite filter_app, last_app.
  by destruct (last (filter _ ws')).
Qed.

Lemma replay_lookup ws (fs : gmap string string) p :
  replay ws fs !! p
  = match last_write p ws with
    | Some c => Some c
    | None => fs !! p
    end.
Proof.
  induction ws as [|[q c] ws IH] using rev_ind; [done|].
  rewrite replay_app, last_write_app. simpl.
  destruct (decide (q = p)) as [->|Hne].
  - rewrite lookup_insert_eq. unfold last_write.
    by rewrite filter_cons_True.
  - rewrite lookup_insert_ne by done. unfold last_write at 1.
    rewrite filter_cons_False by done. simpl. apply IH.
Qed.


Section SameDirectory.
Context {collab : Collaborators}.




End SameDirectory.

Section SameGKey.
Context {collab : Collaborators}.







End SameGKey.



(** ** Scaffolding is additive and idempotent *)



Section Reconcile.
Context {collab : Collaborators}.


End Reconcile.




(** ** Nothing is taken away *)

Lemma appended_refl w : appended w w.
Proof. exists []. split_and!; [by rewrite app_nil_r|done|done]. Qed.

Lemma appended_trans w1 w2 w3 : appended w1 w2 → appended w2 w3 → appended w1 w3.
Proof.
  intros (ws & Hl & Hf & Hd) (ws' & Hl' & Hf' & Hd'). exists (ws ++ ws').
  rewrite Hl', Hl, Hf', Hf, replay_app, app_assoc. split_and!; try done.
  set_solver.
Qed.

Lemma grows_ret {A} (a : A) : grows (ret a).
Proof. intros w. apply appended_refl. Qed.

Lemma grows_throw {A} e : grows (throw (A := A) e).
Proof. intros w. apply appended_refl. Qed.

Lemma grows_lift {A} (r : exn + A) : grows (lift r).
Proof. destruct r; [apply grows_throw|apply grows_ret]. Qed.

Lemma grows_bind {A B} (m : M A) (k : A → M B) :
  grows m → (∀ a, grows (k a)) → grows (bind m k).
Proof.
  intros Hm Hk w. unfold bind. specialize (Hm w).
  destruct (m w) as [a w1|e w1]; simpl in *; [|done].
  eapply appended_trans; [exact Hm|apply Hk].
Qed.

Lemma grows_writeFileSync p c : grows (writeFileSync p c).
Proof. intros w. exists [(p, c)]. simpl. split_and!; done. Qed.

Lemma grows_write_json p v : grows (write_json p v).
Proof.
  unfold write_json. destruct (JSON_stringify v); [apply grows_writeFileSync|].
  apply grows_throw.
Qed.

Lemma grows_ensureDirectory d : grows (ensureDirectory d).
Proof.
  intros w. exists []. simpl. rewrite app_nil_r. split_and!; try done. set_solver.
Qed.

Lemma grows_console_log line : grows (console_log line).
Proof. intros w. exists []. simpl. rewrite app_nil_r. split_and!; done. Qed.

Lemma grows_for_each {A} (xs : list A) body :
  (∀ x, grows (body x)) → grows (for_each xs body).
Proof.
  intros Hbody. induction xs as [|x xs IH]; simpl; [apply grows_ret|].
  apply grows_bind; [apply Hbody|]. by intros _.
Qed.

Lemma grows_fold_each {A S} (xs : list A) (body : S → A → M S) s :
  (∀ s x, grows (body s x)) → grows (fold_each xs body s).
Proof.
  intros Hbody. revert s. induction xs as [|x xs IH]; intros s; simpl;
    [apply grows_ret|].
  apply grows_bind; [apply Hbody|]. intros s'. apply IH.
Qed.

Lemma grows_declared configs K : grows (declared configs K).
Proof.
  induction configs as [|c configs IH]; simpl; [apply grows_ret|].
  apply grows_bind; [apply grows_lift|]. intros k.
  destruct (strict_eq_str k K); [|done].
  apply grows_bind; [apply grows_console_log|]. intros _. apply grows_ret.
Qed.

Lemma grows_generateDefaultConfigs this data : grows (generateDefaultConfigs this data).
Proof.
  apply grows_for_each. intros K. unfold scaffold_category.
  destruct (decide (K = "version")); [apply grows_ret|].
  apply grows_bind; [apply grows_declared|]. intros [|]; [apply grows_ret|].
  destruct (configDir_set this); [apply grows_write_json|apply grows_ret].
Qed.

Section Appending.
Context {collab : Collaborators}.

Lemma grows_emit_analysis outDir GKey groupKey config val :
  grows (emit_analysis outDir GKey groupKey config val).
Proof.
  unfold emit_analysis.
  apply grows_bind; [apply grows_write_json|]. intros _.
  apply grows_bind; [apply grows_lift|]. intros text.
  apply grows_bind; [apply grows_lift|]. intros formatted.
  apply grows_writeFileSync.
Qed.

Lemma grows_generate_category this data acc config :
  grows (generate_category this data acc config).
Proof.
  unfold generate_category.
  apply grows_bind; [apply grows_lift|]. intros groupKey.
  apply grows_bind; [apply grows_lift|]. intros k.
  apply grows_bind; [apply grows_lift|]. intros disabled.
  destruct (truthy disabled); [apply grows_ret|].
  destruct k; try apply grows_throw.
  apply grows_bind; [apply grows_lift|]. intros grouped.
  apply grows_bind; [apply grows_lift|]. intros analysis.
  apply grows_bind; [apply grows_ensureDirectory|]. intros _.
  apply grows_bind; [apply grows_ensureDirectory|]. intros _.
  apply grows_bind; [apply grows_write_json|]. intros _.
  apply grows_bind; [apply grows_for_each; intros val; apply grows_emit_analysis|].
  intros _.
  apply grows_bind; [apply grows_lift|]. intros formatted.
  apply grows_bind; [apply grows_writeFileSync|]. intros _. apply grows_ret.
Qed.

Lemma grows_generate this : grows (generate this).
Proof.
  unfold generate.
  apply grows_bind; [apply grows_lift|]. intros data.
  apply grows_bind; [apply grows_generateDefaultConfigs|]. intros _.
  apply grows_bind; [apply grows_fold_each; intros; apply grows_generate_category|].
  intros acc.
  apply grows_bind; [apply grows_lift|]. intros formatted.
  apply grows_writeFileSync.
Qed.

End Appending.

Lemma replay_keeps ws (fs : gmap string string) p :
  is_Some (fs !! p) → is_Some (replay ws fs !! p).
Proof. intros Hp. rewrite replay_lookup. by destruct (last_write p ws). Qed.

(** X1: however [generate] ends, with a result or with an exception, it has
    only appended: the write log is the earlier log followed by the new
    writes, the files are the earlier files with those writes applied, so
    every file and every directory that existed still exists. *)
Theorem generate_only_appends {collab : Collaborators} this w :
  (∃ ws, log (world_of (generate this w)) = log w ++ ws
         ∧ files (world_of (generate this w)) = replay ws (files w))
  ∧ dirs w ⊆ dirs (world_of (generate this w))
  ∧ ∀ p, is_Some (files w !! p) → is_Some (files (world_of (generate this w)) !! p).
Proof.
  destruct (grows_generate this w) as (ws & Hlog & Hfiles & Hdirs).
  split_and!; [by exists ws|done|].
  intros p Hp. rewrite Hfiles. by apply replay_keeps.
Qed.

(** X2: [loadConfig] changes nothing in the world, whether it completes or
    throws: it only reads. *)
Theorem loadConfig_only_reads {collab : Collaborators} this dir w :
  world_of (loadConfig this dir w) = w.
Proof.
  destruct (loadConfig this dir w) as [this' w'|e w'] eqn:Hrun; simpl.
  - by apply loadConfig_Ok in Hrun as (_ & _ & -> & _).
  - by apply loadConfig_Throw in Hrun as [-> _].
Qed.

(** ** What [loadConfig] stores *)

Lemma zip_stems dir w (configs : list GeneratorConfig) :
  length (configFiles dir w) = length configs →
  (λ fc : string * GeneratorConfig, basename fc.1 ".json") <$> zip (configFiles dir w) configs
  = (λ file, basename file ".json") <$> configFiles dir w.
Proof.
  intros Hlen.
  transitivity ((λ file, basename file ".json") <$> (zip (configFiles dir w) configs).*1).
  - by rewrite <- list_fmap_compose.
  - by rewrite fst_zip by lia.
Qed.

(** X3: when [loadConfig] completes, the config map holds, for every file of
    the directory with extension [.json], what the reader made of its text,
    under the file's name without the extension; every other key reads as
    before the call; and every entry is an earlier entry or comes from such a
    file, so that a file with another extension is never loaded.  The target
    directory is kept and the descriptor directory is the one given. *)
Theorem loadConfig_entries {collab : Collaborators} this dir this' w w' :
  loadConfig this dir w = Ok this' w' →
  targetDir this' = targetDir this
  ∧ configDir this' = Some dir
  ∧ (∀ file, file ∈ configFiles dir w →
             ∃ config, reads dir w file config
                       ∧ assoc (basename file ".json") (configMap this') = Some config)
  ∧ (∀ k, k ∉ (λ file, basename file ".json") <$> configFiles dir w →
          assoc k (configMap this') = assoc k (configMap this))
  ∧ (∀ k config, (k, config) ∈ configMap this' →
                 (k, config) ∈ configMap this
                 ∨ ∃ file, file ∈ listing dir (files w) ∧ extname file = ".json"
                           ∧ reads dir w file config ∧ k = basename file ".json").
Proof.
  intros Hrun.
  pose proof Hrun as Hrun'.
  apply loadConfig_Ok in Hrun' as (Hne & Hdir & -> & configs & Hcs & ->).
  pose proof (Forall2_length _ _ _ Hcs) as Hlen.
  destruct (loadConfig_completes this dir w Hne Hdir)
    as (this'' & Hrun'' & _ & _ & Hkept & Hfrom).
  { intros file text Hfile Htext. apply list_elem_of_lookup in Hfile as [i Hi].
    destruct (Forall2_lookup_l _ _ _ _ _ Hcs Hi) as (c & _ & t & Ht & Hc).
    exists c. congruence. }
  rewrite Hrun in Hrun''. injection Hrun'' as <-. simpl in *.
  split_and!; try done.
  - intros file Hfile. pose proof Hfile as Hfile'.
    apply list_elem_of_lookup in Hfile' as [i Hi].
    destruct (Forall2_lookup_l _ _ _ _ _ Hcs Hi) as (c & _ & Hreads).
    exists c. split; [done|]. by apply Hkept.
  - intros k Hk. apply assoc_stored_other. by rewrite zip_stems.
  - intros k config Hin. destruct (Hfrom k config Hin) as [?|(file & Hfile & ? & ?)];
      [by left|right].
    exists file. unfold configFiles in Hfile.
    apply list_elem_of_filter in Hfile as [? ?]. done.
Qed.

Lemma loadConfig_entries_witness :
  ∃ this',
    loadConfig (collab := reference Example.data)
      {| configMap := [("monsters", Example.plain_config "monsters")];
         targetDir := "out"; configDir := None |} "configs" mixed_world
    = Ok this' mixed_world
    ∧ configDir this' = Some "configs"
    ∧ assoc "monsters" (configMap this') = Some (Example.plain_config "monsters")
    ∧ ∃ config, assoc "items" (configMap this') = Some config.
Proof.
  assert (configFiles "configs" mixed_world = ["items.json"]) as Hfiles
    by (vm_compute; reflexivity).
  eexists. split; [vm_compute; reflexivity|].
  match goal with |- context [configDir ?g] => set (this' := g) end.
  destruct (loadConfig_entries (collab := reference Example.data)
              {| configMap := [("monsters", Example.plain_config "monsters")];
                 targetDir := "out"; configDir := None |}
              "configs" this' mixed_world mixed_world)
    as (_ & Hdir & Hloaded & Hkept & _).
  - vm_compute. reflexivity.
  - split; [exact Hdir|]. split.
    + etrans; [apply Hkept|reflexivity].
      rewrite Hfiles. intros Hin. apply list_elem_of_In in Hin.
      simpl in Hin. destruct Hin as [Heq|[]]. vm_compute in Heq. discriminate Heq.
    + destruct (Hloaded "items.json") as (config & _ & Hconfig).
      * rewrite Hfiles. apply list_elem_of_In. simpl. tauto.
      * exists config. exact Hconfig.
Defined.

(** ** Exceptions of the generator's own *)

(** X4: a config that declares no [GKey] (or one that is not a string) goes
    unnoticed as long as it is disabled: its turn is skipped.  Once enabled,
    its turn throws a [TypeError] at the first path built from [GKey], before
    anything is written. *)
Theorem config_without_GKey {collab : Collaborators} this data acc config w :
  nullish config = false →
  (∀ K, prop config "GKey" ≠ VStr K) →
  (truthy (prop config "disabled") = true →
   generate_category this data acc config w = Ok acc w)
  ∧ (truthy (prop config "disabled") = false →
     ∃ msg, generate_category this data acc config w = Throw (TypeError msg) w).
Proof.
  intros Hnull HGKey. unfold generate_category.
  rewrite !(get_prop_prop _ _ Hnull). unfold bind, lift, ret. split.
  - by intros ->.
  - intros ->. destruct (prop config "GKey") as [| | | |K| |] eqn:HK;
      try (by eexists). by destruct (HGKey K).
Qed.

Lemma config_without_GKey_witness :
  generate_category (collab := reference Example.data) Example.loaded Example.data
    initial_indexes (VObj [("disabled", VBool true)]) Example.world
  = Ok initial_indexes Example.world
  ∧ ∃ msg, generate_category (collab := reference Example.data) Example.loaded
             Example.data initial_indexes (VObj []) Example.world
           = Throw (TypeError msg) Example.world.
Proof.
  split.
  - apply (config_without_GKey (collab := reference Example.data) Example.loaded
             Example.data initial_indexes (VObj [("disabled", VBool true)])
             Example.world); [reflexivity|discriminate|reflexivity].
  - apply (config_without_GKey (collab := reference Example.data) Example.loaded
             Example.data initial_indexes (VObj []) Example.world);
      [reflexivity|discriminate|reflexivity].
Defined.

Lemma get_prop_nullish config k :
  nullish config = true → ∃ msg, get_prop config k = inl (TypeError msg).
Proof. destruct config; try done; intros _; by eexists. Qed.

(** X5: when the first config of the map is [null] (a descriptor whose text
    is the JSON [null]) and the dataset has a category other than "version",
    [generateDefaultConfigs] throws a [TypeError] on reading [GKey], and so
    does [generate], before anything is written. *)
Theorem null_config_aborts {collab : Collaborators} this data config rest K w :
  map_values (configMap this) = config :: rest →
  nullish config = true →
  K ∈ object_keys data → K ≠ "version" →
  ∃ msg,
    generateDefaultConfigs this data w = Throw (TypeError msg) w
    ∧ (getGData = inr data → generate this w = Throw (TypeError msg) w).
Proof.
  intros Hmap Hnull HK Hversion.
  destruct (get_prop_nullish config "GKey" Hnull) as [msg Hmsg].
  exists msg.
  assert (generateDefaultConfigs this data w = Throw (TypeError msg) w) as Hgdc.
  { unfold generateDefaultConfigs. unfold object_keys in *.
    induction data as [|[K' v] data IH]; simpl in *; [by apply elem_of_nil in HK|].
    unfold bind at 1. unfold scaffold_category at 1.
    destruct (decide (K' = "version")) as [->|Hne].
    - unfold ret at 1. apply IH. apply elem_of_cons in HK as [->|HK]; done.
    - rewrite Hmap. simpl. unfold bind. by rewrite Hmsg. }
  split; [done|]. intros Hdata. unfold generate.
  apply bind_Throw. right. exists data, w. split; [by apply lift_Ok|].
  apply bind_Throw. by left.
Qed.

Lemma null_config_aborts_witness :
  ∃ msg,
    generateDefaultConfigs with_null Example.data Example.world
    = Throw (TypeError msg) Example.world
    ∧ generate (collab := reference Example.data) with_null Example.world
      = Throw (TypeError msg) Example.world.
Proof.
  destruct (null_config_aborts (collab := reference Example.data) with_null Example.data
              VNull [Example.items_config] "items" Example.world)
    as (msg & Hgdc & Hgen).
  - reflexivity.
  - reflexivity.
  - apply list_elem_of_In. simpl. tauto.
  - discriminate.
  - exists msg. split; [exact Hgdc|]. apply Hgen. reflexivity.
Defined.

Lemma for_each_app_run {A} (xs ys : list A) body w w1 :
  for_each xs body w = Ok tt w1 →
  for_each (xs ++ ys) body w = for_each ys body w1.
Proof.
  revert w. induction xs as [|x xs IH]; intros w.
  - simpl. unfold ret. by intros [= ->].
  - intros Hrun. apply for_each_cons_Ok in Hrun as (w2 & Hx & Hxs).
    simpl. unfold bind. rewrite Hx. by apply IH.
Qed.

Lemma for_each_cons_Throw {A} (x : A) xs body e w w' :
  body x w = Throw e w' → for_each (x :: xs) body w = Throw e w'.
Proof. intros Hx. simpl. unfold bind. by rewrite Hx. Qed.

(** X6: the modules of a category are written one after the other and
    nothing is undone.  When [generateTypes] or the formatter throws for one
    analysis result, the snapshot and the module of every earlier result and
    the snapshot of the failing one have been written; its module, and
    everything for the later results, has not. *)
Theorem failed_module_keeps_earlier_output {collab : Collaborators}
    outDir GKey groupKey config before val rest modules e w :
  Forall2 (rendered groupKey config) before modules →
  generateTypes val groupKey config = inl e
  ∨ (∃ text, generateTypes val groupKey config = inr text
             ∧ prettier_format text = inl e) →
  for_each (before ++ val :: rest) (emit_analysis outDir GKey groupKey config) w
  = Throw e
      (written
         (concat (zip_with (analysis_writes outDir GKey) before modules)
          ++ [(snapshot_path GKey val, serialize "" (analysis_value val))])
         w).
Proof.
  intros Hbefore Hfail.
  rewrite <- written_written.
  rewrite (for_each_app_run before (val :: rest) _ w
             (written (concat (zip_with (analysis_writes outDir GKey) before modules)) w))
    by (apply emit_all_Ok; eauto).
  apply for_each_cons_Throw. unfold emit_analysis, snapshot_path.
  apply bind_Throw. right. eexists tt, _.
  split; [apply write_json_written; by destruct val|].
  destruct Hfail as [Hgen|(text & Hgen & Hfmt)].
  - apply bind_Throw. left. unfold lift. by rewrite Hgen.
  - apply bind_Throw. right. eexists text, _. split; [by apply lift_Ok|].
    apply bind_Throw. left. unfold lift. by rewrite Hfmt.
Qed.

Lemma failed_module_keeps_earlier_output_witness :
  ∃ e,
    for_each [Example.weapon; two_handed; Example.shield]
      (emit_analysis (collab := strict Example.data) "out/GTypes/items" "items"
         (VStr "type") Example.items_config) Example.world
    = Throw e
        (written
           (analysis_writes (collab := strict Example.data) "out/GTypes/items" "items"
              Example.weapon
              ("export type weaponKey = " +:+ quote "a" +:+ ";" +:+ nl
               +:+ "export interface Gweapon {}")
            ++ [("tmp/items/two-handed_analysis.json",
                 serialize "" (analysis_value two_handed))])
           Example.world).
Proof.
  exists (SyntaxError "Unexpected token").
  apply (failed_module_keeps_earlier_output (collab := strict Example.data)
           "out/GTypes/items" "items" (VStr "type") Example.items_config
           [Example.weapon] two_handed [Example.shield]
           ["export type weaponKey = " +:+ quote "a" +:+ ";" +:+ nl
            +:+ "export interface Gweapon {}"]
           (SyntaxError "Unexpected token") Example.world).
  - constructor; [|constructor]. eexists. split; [reflexivity|].
    vm_compute. reflexivity.
  - right. eexists. split; [reflexivity|]. vm_compute. reflexivity.
Defined.

(** ** Categories without grouping, and the assembled index *)




Section Assembly.
Context {collab : Collaborators}.



End Assembly.





(** ** Scaffolding again *)



